(** * FluczakSignalBus: delegates and the signal bus

    A shallow embedding of [src/Delegate.hpp] and [src/SignalBus.hpp].

    Conventions of the model.
    - An object pointer ([const void*], [Class*]) is an address in [N];
      [0] is [nullptr].
    - A template argument is modelled by its name: a [<Class, MemberFunction>]
      pair is a [MemberFunction] record, a free [Function] is a string.  An
      event type given as template argument is an [EventType]: the name of
      the class with the cv-qualifiers and the reference of the argument;
      [typeid] keeps the name only, as [typeid(T)] does.
    - [m_stub] points to a function.  The only functions whose address the
      header ever takes are the captureless lambdas it contains; the model
      names each of them by its place in the header and its template
      arguments ([Stub]).
    - Host code (the free functions and member functions that get bound) is
      not executed: a dispatch is recorded as a [Call], and [Emit] returns
      the list of calls it made, in order.  Handlers are assumed to return
      normally and not to re-enter the bus. *)

From stdpp Require Import gmap strings list fin_maps.

(** ** Delegate.hpp *)

Definition pointer := N.
Definition nullptr : pointer := 0%N.

(** The [<Class, MemberFunction>] template arguments of [Bind] and [Matches]. *)
Record MemberFunction := { mf_class : string; mf_name : string }.

#[global] Instance MemberFunction_eq_dec : EqDecision MemberFunction.
Proof. solve_decision. Defined.

(** The lambdas of [Delegate.hpp], one function per instantiation.  (The
    private [NonMemberStub] is declared as well, but nothing takes its
    address.) *)
Inductive Stub :=
| MatchesLambda (cm : MemberFunction)      (* Delegate.hpp:78, in Matches *)
| NonMemberLambda (f : string)             (* Delegate.hpp:90, in Bind<Function> *)
| ConstMemberLambda (cm : MemberFunction)  (* Delegate.hpp:103, in Bind(const Class* ) *)
| MemberLambda (cm : MemberFunction).      (* Delegate.hpp:117, in Bind(Class* ) *)

#[global] Instance Stub_eq_dec : EqDecision Stub.
Proof. solve_decision. Defined.

(** Where the build places the code of each lambda.  [m_stub == lambda]
    compares code addresses, and C++ gives every lambda expression a closure
    type and a function of its own: whether the function of the lambda
    written in [Matches] has the address of the one written in [Bind] is
    decided by the build (it has when identical functions are folded, it has
    not otherwise).  The model leaves the placement open.  It describes the
    comparison carried out on a pointer read back from a stored delegate,
    as on the path of [Unbind]; where a compiler sees the origin of both
    operands it may also settle the test without comparing addresses. *)
Class Linker := code_address : Stub → positive.

(** [class Delegate<R(Args...)>]: the two data members. *)
Record Delegate := {
  m_instance : pointer;
  m_stub : option Stub   (* [None] is [nullptr] *)
}.

#[global] Instance Delegate_eq_dec : EqDecision Delegate.
Proof. solve_decision. Defined.

(** [Delegate() = default], with the default member initialisers. *)
Definition Delegate_default : Delegate :=
  {| m_instance := nullptr; m_stub := None |}.

(** [class BadDelegateCall : public std::exception]. *)
Inductive BadDelegateCall := bad_delegate_call.

#[global] Instance BadDelegateCall_eq_dec : EqDecision BadDelegateCall.
Proof. solve_decision. Defined.

(** How a C++ call ends. *)
Inductive Outcome :=
| Returns
| Throws (e : BadDelegateCall)
| Undefined.

#[global] Instance Outcome_eq_dec : EqDecision Outcome.
Proof. solve_decision. Defined.

(** The host function a stub ends up calling. *)
Inductive Callee :=
| FreeFunction (f : string)
| Method (cm : MemberFunction) (object : pointer).

#[global] Instance Callee_eq_dec : EqDecision Callee.
Proof. solve_decision. Defined.

Record Call (Args : Type) := MkCall { callee : Callee; arguments : Args }.
Arguments MkCall {Args} _ _.
Arguments callee {Args} _.
Arguments arguments {Args} _.

(** Comparison of two [StubFunction] pointers. *)
Definition StubFunction_eqb `{Linker} (p q : option Stub) : bool :=
  match p, q with
  | None, None => true
  | Some s, Some t => bool_decide (code_address s = code_address t)
  | _, _ => false
  end.

Section Delegate.
Context {Args : Type}.

(** The bodies of the lambdas: a call of [Function], or of [MemberFunction]
    on the object that [p] points to, with [args]. *)
Definition run_stub (s : Stub) (p : pointer) (args : Args) : Call Args :=
  match s with
  | NonMemberLambda f => MkCall (FreeFunction f) args
  | MatchesLambda cm | ConstMemberLambda cm | MemberLambda cm =>
      MkCall (Method cm p) args
  end.

(** [R operator()(Args... args) const] *)
Definition invoke (d : Delegate) (args : Args) : BadDelegateCall + Call Args :=
  match m_stub d with
  | None => inl bad_delegate_call
  | Some stub => inr (run_stub stub (m_instance d) args)
  end.

End Delegate.

(** [bool Matches<Class, MemberFunction>(const Class* instance) const] *)
Definition Matches `{Linker} (d : Delegate) (cm : MemberFunction)
    (instance : pointer) : bool :=
  bool_decide (m_instance d = instance)
  && StubFunction_eqb (m_stub d) (Some (MatchesLambda cm)).

(** [void Bind<Function>()] *)
Definition Bind_function (f : string) (d : Delegate) : Delegate :=
  {| m_instance := nullptr; m_stub := Some (NonMemberLambda f) |}.

(** [Delegate Bind<Class, MemberFunction>(const Class* classPointer)]. The
    body makes the two assignments and then runs off the end of a function
    declared to return a [Delegate]: the call has no defined outcome. *)
Definition Bind_const_member (cm : MemberFunction) (classPointer : pointer)
    (d : Delegate) : Delegate * Outcome :=
  ({| m_instance := classPointer; m_stub := Some (ConstMemberLambda cm) |},
   Undefined).

(** [void Bind<Class, MemberFunction>(Class* c)] *)
Definition Bind_member (cm : MemberFunction) (c : pointer) (d : Delegate)
    : Delegate :=
  {| m_instance := c; m_stub := Some (MemberLambda cm) |}.

(** An event type as it is written in a template argument list: a class,
    [const] or [volatile] qualified or not, a reference or not. *)
Inductive CvQualifier := NoCv | ConstCv | VolatileCv | ConstVolatileCv.
Inductive RefQualifier := NoRef | LvalueRef | RvalueRef.

#[global] Instance CvQualifier_eq_dec : EqDecision CvQualifier.
Proof. solve_decision. Defined.
#[global] Instance RefQualifier_eq_dec : EqDecision RefQualifier.
Proof. solve_decision. Defined.

Record EventType := {
  event_class : string;
  event_cv : CvQualifier;
  event_ref : RefQualifier
}.

#[global] Instance EventType_eq_dec : EqDecision EventType.
Proof. solve_decision. Defined.

(** [std::type_index] of [typeid(T)]: [typeid] of a reference is that of the
    referenced type, and cv-qualifiers are ignored. *)
Definition type_index := string.
Definition typeid (T : EventType) : type_index := event_class T.

(** [struct DelegateHandle<T> : IDelegateHandle].  The bus stores handles of
    every event type behind [IDelegateHandle] pointers; the dynamic type,
    the class [DelegateHandle<T>] with [T] as it was written, is kept as a
    tag. *)
Record DelegateHandle := {
  handle_type : EventType;
  m_delegate : Delegate
}.

#[global] Instance DelegateHandle_eq_dec : EqDecision DelegateHandle.
Proof. solve_decision. Defined.

(** [dynamic_cast<DelegateHandle<T>*>(handle.get())] *)
Definition dynamic_cast (T : EventType) (h : DelegateHandle)
    : option DelegateHandle :=
  if decide (handle_type h = T) then Some h else None.

(** [void DelegateHandle<T>::Emit(T event)] *)
Definition DelegateHandle_Emit {Event : Type} (h : DelegateHandle)
    (event : Event) : BadDelegateCall + Call Event :=
  invoke (m_delegate h) event.

(** [bool DelegateHandle<T>::Matches<Class, MemberFunction>(instance)] *)
Definition DelegateHandle_Matches `{Linker} (h : DelegateHandle)
    (cm : MemberFunction) (instance : pointer) : bool :=
  Matches (m_delegate h) cm instance.

(** ** SignalBus.hpp *)

(** [m_map]: [std::type_index] to the handles filed under it, in order. *)
Abbreviation SignalBus := (gmap type_index (list DelegateHandle)).

Section SignalBus.
Context {Event : Type}.

(** The body of the range-for in [Emit], over the remaining elements. *)
Fixpoint Emit_loop (EventToEmit : EventType) (data : Event)
    (elements : list DelegateHandle) : list (Call Event) * Outcome :=
  match elements with
  | [] => ([], Returns)
  | element :: rest =>
      match dynamic_cast EventToEmit element with
      | None => ([], Undefined)   (* [casted] is null and is dereferenced *)
      | Some casted =>
          match DelegateHandle_Emit casted data with
          | inl e => ([], Throws e)
          | inr call =>
              let '(calls, outcome) := Emit_loop EventToEmit data rest in
              (call :: calls, outcome)
          end
      end
  end.

(** [void SignalBus::Emit<EventToEmit>(EventToEmit data)].  [m_map[key]]
    inserts an empty vector when the key is absent. *)
Definition Emit (EventToEmit : EventType) (data : Event) (m_map : SignalBus)
    : SignalBus * (list (Call Event) * Outcome) :=
  match m_map !! typeid EventToEmit with
  | Some elements => (m_map, Emit_loop EventToEmit data elements)
  | None =>
      (<[typeid EventToEmit := []]> m_map, Emit_loop EventToEmit data [])
  end.

End SignalBus.

(** [void SignalBus::Bind<EventToBindInto, ClassToBind, MemberFunction>(instance)] *)
Definition Bind (EventToBindInto : EventType) (cm : MemberFunction)
    (instance : pointer) (m_map : SignalBus) : SignalBus :=
  let delegate := Bind_member cm instance Delegate_default in
  let handle := {| handle_type := EventToBindInto; m_delegate := delegate |} in
  <[typeid EventToBindInto :=
      default [] (m_map !! typeid EventToBindInto) ++ [handle]]> m_map.

(** The predicate given to [std::remove_if] in [Unbind]. *)
Definition Unbind_pred `{Linker} (EventToUnbind : EventType)
    (cm : MemberFunction) (instance : pointer) (handle : DelegateHandle)
    : bool :=
  match dynamic_cast EventToUnbind handle with
  | None => false
  | Some typedHandle => DelegateHandle_Matches typedHandle cm instance
  end.

(** [v.erase(std::remove_if(v.begin(), v.end(), pred), v.end())] *)
Definition erase_remove_if {A} (pred : A → bool) (v : list A) : list A :=
  filter (λ x, pred x = false) v.

(** [std::vector::empty] *)
Definition vector_empty {A} (v : list A) : bool :=
  match v with [] => true | _ => false end.

(** [void SignalBus::Unbind<EventToUnbind, ClassToUnbind, MemberFunction>(instance)] *)
Definition Unbind `{Linker} (EventToUnbind : EventType)
    (cm : MemberFunction) (instance : pointer) (m_map : SignalBus)
    : SignalBus :=
  match m_map !! typeid EventToUnbind with
  | None => m_map
  | Some second =>
      let second := erase_remove_if (Unbind_pred EventToUnbind cm instance) second in
      if negb (vector_empty second)
      then delete (typeid EventToUnbind) m_map
      else <[typeid EventToUnbind := second]> m_map
  end.

(** ** Programs over one bus *)

(** A call of one of the three public member functions. *)
Inductive Operation (Event : Type) :=
| CallBind (E : EventType) (cm : MemberFunction) (instance : pointer)
| CallUnbind (E : EventType) (cm : MemberFunction) (instance : pointer)
| CallEmit (E : EventType) (data : Event).
Arguments CallBind {Event} _ _ _.
Arguments CallUnbind {Event} _ _ _.
Arguments CallEmit {Event} _ _.

(** The registry after one call. *)
Definition perform `{Linker} {Event : Type} (m_map : SignalBus)
    (op : Operation Event) : SignalBus :=
  match op with
  | CallBind E cm instance => Bind E cm instance m_map
  | CallUnbind E cm instance => Unbind E cm instance m_map
  | CallEmit E data => (Emit E data m_map).1
  end.

(** The registry of a bus that was default-constructed and then received
    the calls [ops], first to last. *)
Definition bus_after `{Linker} {Event : Type} (ops : list (Operation Event))
    : SignalBus :=
  foldl perform ∅ ops.

(** ** Vocabulary of the properties *)

(** The handle sequence filed under a key; none is the empty sequence. *)
Definition handles (m_map : SignalBus) (K : type_index) : list DelegateHandle :=
  default [] (m_map !! K).

(** The handle that [Bind<E, Class, MemberFunction>(instance)] stores. *)
Definition subscription (E : EventType) (cm : MemberFunction)
    (instance : pointer) : DelegateHandle :=
  {| handle_type := E;
     m_delegate := Bind_member cm instance Delegate_default |}.

(** How many times [(instance, cm)] is bound for [E]. *)
Definition bound_count (m_map : SignalBus) (E : EventType)
    (cm : MemberFunction) (instance : pointer) : nat :=
  length (filter (λ h, h = subscription E cm instance)
            (handles m_map (typeid E))).

(** The call that a delivery of [data] to [(instance, cm)] makes. *)
Definition delivery {Event : Type} (cm : MemberFunction) (instance : pointer)
    (data : Event) : Call Event :=
  MkCall (Method cm instance) data.

(** How many of [calls] go to [(instance, cm)]. *)
Definition invocations {Event : Type} (cm : MemberFunction)
    (instance : pointer) (calls : list (Call Event)) : nat :=
  length (filter (λ c, callee c = Method cm instance) calls).

(** The handles and the calls of a list of [(MemberFunction, instance)]
    pairs, in the order of the list. *)
Definition subscriptions (E : EventType)
    (l : list (MemberFunction * pointer)) : list DelegateHandle :=
  map (λ s, subscription E s.1 s.2) l.

Definition deliveries {Event : Type} (l : list (MemberFunction * pointer))
    (data : Event) : list (Call Event) :=
  map (λ s, delivery s.1 s.2 data) l.

(** One of the two [Bind] overloads that return, chosen by its target. *)
Definition Bind_to (target : Callee) : Delegate → Delegate :=
  match target with
  | FreeFunction f => Bind_function f
  | Method cm c => Bind_member cm c
  end.

(** Every handle filed under a key is a subscription of an event type with
    that key. *)
Definition well_formed (m_map : SignalBus) : Prop :=
  ∀ K, Forall (λ h, ∃ E cm instance,
                 typeid E = K ∧ h = subscription E cm instance)
         (handles m_map K).

(** ** Two builds *)

Definition stub_key (s : Stub) : nat * (string * string) :=
  match s with
  | MatchesLambda cm => (0, (mf_class cm, mf_name cm))
  | NonMemberLambda f => (1, (f, EmptyString))
  | ConstMemberLambda cm => (2, (mf_class cm, mf_name cm))
  | MemberLambda cm => (3, (mf_class cm, mf_name cm))
  end.

(** Every lambda has code of its own. *)
Definition separate_code : Linker := λ s, encode (stub_key s).

(** The lambda of [Matches] and the lambda of the non-const [Bind] have the
    same body; this build keeps one copy of it per [<Class, MemberFunction>]. *)
Definition folded_code : Linker := λ s,
  match s with
  | MatchesLambda cm => encode (stub_key (MemberLambda cm))
  | _ => encode (stub_key s)
  end.

(** ** Names for examples: the event and the handler of the demonstration
    program, and a second member function *)

Definition StringEvent : EventType :=
  {| event_class := "StringEvent"; event_cv := NoCv; event_ref := NoRef |}.
Definition const_StringEvent : EventType :=
  {| event_class := "StringEvent"; event_cv := ConstCv; event_ref := NoRef |}.
Definition IntEvent : EventType :=
  {| event_class := "IntEvent"; event_cv := NoCv; event_ref := NoRef |}.
Definition A_Say : MemberFunction := {| mf_class := "A"; mf_name := "Say" |}.
Definition A_Hear : MemberFunction := {| mf_class := "A"; mf_name := "Hear" |}.

(** ** Vocabulary of the further properties *)


(** A build in which the lambda of [Matches<Class, MemberFunction>] shares
    its code with the lambda of [Bind<Class, MemberFunction>(Class* )] and
    with that of no other instantiation. *)
Definition folds_member_lambdas (L : Linker) : Prop :=
  ∀ cm cm', code_address (MemberLambda cm) = code_address (MatchesLambda cm')
            ↔ cm = cm'.

(** A build in which the lambda of [Matches] shares its code with no other
    lambda. *)
Definition keeps_Matches_apart (L : Linker) : Prop :=
  ∀ s cm, code_address s = code_address (MatchesLambda cm)
          → s = MatchesLambda cm.

(** ** FluczakSignalbus.cpp *)

(** [A::Say] writes [s.s] to [std::cout]: the text that the calls made add
    to the output.  An event of class [StringEvent] is its member [s]. *)
Definition cout_of (calls : list (Call string)) : string :=
  foldr (λ c out,
           match callee c with
           | Method cm _ => if decide (cm = A_Say) then arguments c +:+ out
                            else out
           | FreeFunction _ => out
           end) EmptyString calls.

(** [int main()], with the object [a] at address [a]: the text written to
    [std::cout] and the value returned, if [main] returns. *)
Definition main (a : pointer) : string * option Z :=
  let bus : SignalBus := ∅ in
  let bus := Bind StringEvent A_Say a bus in
  let event := "Test1" in
  let '(bus, (calls1, outcome1)) := Emit StringEvent event bus in
  match outcome1 with
  | Returns =>
      let event := "Test2" in
      let '(bus, (calls2, outcome2)) := Emit StringEvent event bus in
      match outcome2 with
      | Returns => (cout_of (calls1 ++ calls2), Some 0%Z)
      | _ => (cout_of (calls1 ++ calls2), None)
      end
  | _ => (cout_of calls1, None)
  end.

(** * Properties *)

(** ** Delegate *)

Section DelegateFacts.
Context {Args : Type}.
Implicit Types (d : Delegate) (args : Args).

Lemma invoke_unbound d args :
  m_stub d = None → invoke d args = inl bad_delegate_call.
Proof. unfold invoke. by intros ->. Qed.

Lemma invoke_Bind_function f d args :
  invoke (Bind_function f d) args = inr (MkCall (FreeFunction f) args).
Proof. reflexivity. Qed.

Lemma invoke_Bind_member cm c d args :
  invoke (Bind_member cm c d) args = inr (MkCall (Method cm c) args).
Proof. reflexivity. Qed.

Lemma invoke_Bind_to target d args :
  invoke (Bind_to target d) args = inr (MkCall target args).
Proof. destruct target; reflexivity. Qed.

Lemma Bind_to_overwrites target d d' : Bind_to target d = Bind_to target d'.
Proof. destruct target; reflexivity. Qed.

End DelegateFacts.

Section MatchesFacts.
Context `{Linker}.

Lemma StubFunction_eqb_null s : StubFunction_eqb None (Some s) = false.
Proof. reflexivity. Qed.

Lemma Matches_spec d cm instance :
  Matches d cm instance = true ↔
  m_instance d = instance ∧
  ∃ s, m_stub d = Some s ∧ code_address s = code_address (MatchesLambda cm).
Proof.
  unfold Matches, StubFunction_eqb.
  rewrite andb_true_iff, bool_decide_eq_true.
  destruct (m_stub d) as [s|].
  - rewrite bool_decide_eq_true. split.
    + intros [Hi Hs]. eauto.
    + intros [Hi (s' & [= <-] & Hs)]. done.
  - split.
    + intros [_ [=]].
    + intros [_ (s & [=] & _)].
Qed.

Lemma Matches_other_instance d cm instance :
  m_instance d ≠ instance → Matches d cm instance = false.
Proof.
  intros Hne. unfold Matches. by rewrite bool_decide_eq_false_2.
Qed.

Lemma Unbind_pred_other_type E cm instance h :
  handle_type h ≠ E → Unbind_pred E cm instance h = false.
Proof.
  intros Hne. unfold Unbind_pred, dynamic_cast. by rewrite decide_False.
Qed.

Lemma Unbind_pred_same_type E cm instance h :
  handle_type h = E →
  Unbind_pred E cm instance h = Matches (m_delegate h) cm instance.
Proof.
  intros Heq. unfold Unbind_pred, dynamic_cast. by rewrite decide_True.
Qed.

Lemma Unbind_pred_other_instance E cm instance cm' instance' :
  instance' ≠ instance →
  Unbind_pred E cm instance (subscription E cm' instance') = false.
Proof.
  intros Hne. rewrite Unbind_pred_same_type by reflexivity.
  by apply Matches_other_instance.
Qed.

End MatchesFacts.

(** Under the two builds: with folded code [Matches] recognises exactly the
    pair it was instantiated with, with separate code it recognises nothing. *)
Lemma Matches_folded_code cm c d cm' instance :
  Matches (H := folded_code) (Bind_member cm c d) cm' instance = true ↔
  c = instance ∧ cm = cm'.
Proof.
  rewrite Matches_spec. simpl. split.
  - intros [-> (s & [= <-] & Hs)]. split; [done|].
    unfold code_address, folded_code in Hs.
    apply (inj encode) in Hs. destruct cm, cm'. by simplify_eq/=.
  - intros [-> ->]. split; [done|]. by exists (MemberLambda cm').
Qed.

Lemma Matches_separate_code d cm instance :
  m_stub d ≠ Some (MatchesLambda cm) →
  Matches (H := separate_code) d cm instance = false.
Proof.
  intros Hd. apply not_true_is_false. rewrite Matches_spec.
  intros [_ (s & Hs & Haddr)]. apply Hd. rewrite Hs. f_equal.
  unfold code_address, separate_code in Haddr. apply (inj encode) in Haddr.
  destruct s as [[]|?|[]|[]], cm; by simplify_eq/=.
Qed.

(** ** The registry after each member function *)

Section RegistryFacts.
Context `{Linker}.
Implicit Types (m_map : SignalBus) (E T : EventType) (K : type_index).

Lemma handles_empty K : handles ∅ K = [].
Proof. unfold handles. by rewrite lookup_empty. Qed.

Lemma handles_Bind_eq E cm instance m_map :
  handles (Bind E cm instance m_map) (typeid E)
  = handles m_map (typeid E) ++ [subscription E cm instance].
Proof. unfold handles, Bind. by rewrite lookup_insert_eq. Qed.

Lemma handles_Bind_ne E K cm instance m_map :
  typeid E ≠ K → handles (Bind E cm instance m_map) K = handles m_map K.
Proof. intros Hne. unfold handles, Bind. by rewrite lookup_insert_ne. Qed.

(** The inverted test at the end of [Unbind]: the entry goes away when
    handles remain, and stays when none does. *)
Lemma Unbind_lookup_eq E cm instance m_map :
  Unbind E cm instance m_map !! typeid E =
  match m_map !! typeid E with
  | None => None
  | Some second =>
      if vector_empty (erase_remove_if (Unbind_pred E cm instance) second)
      then Some [] else None
  end.
Proof.
  unfold Unbind. destruct (m_map !! typeid E) as [second|] eqn:Hlook; [|done].
  destruct (erase_remove_if _ second) as [|h rest]; simpl.
  - by rewrite lookup_insert_eq.
  - by rewrite lookup_delete_eq.
Qed.

Lemma Unbind_lookup_ne E K cm instance m_map :
  typeid E ≠ K → Unbind E cm instance m_map !! K = m_map !! K.
Proof.
  intros Hne. unfold Unbind.
  destruct (m_map !! typeid E) as [second|]; [|done].
  destruct (negb _).
  - by rewrite lookup_delete_ne.
  - by rewrite lookup_insert_ne.
Qed.

Lemma handles_Unbind_eq E cm instance m_map :
  handles (Unbind E cm instance m_map) (typeid E) = [].
Proof.
  unfold handles. rewrite Unbind_lookup_eq.
  destruct (m_map !! typeid E) as [second|]; [|done].
  by destruct (vector_empty _).
Qed.

Lemma handles_Unbind_ne E K cm instance m_map :
  typeid E ≠ K → handles (Unbind E cm instance m_map) K = handles m_map K.
Proof. intros Hne. unfold handles. by rewrite Unbind_lookup_ne. Qed.

Lemma Unbind_absent E cm instance m_map :
  m_map !! typeid E = None → Unbind E cm instance m_map = m_map.
Proof. unfold Unbind. by intros ->. Qed.

End RegistryFacts.

Section EmitFacts.
Context {Event : Type}.
Implicit Types (m_map : SignalBus) (E T : EventType) (K : type_index)
  (data : Event).

Lemma Emit_registry E data m_map :
  (Emit E data m_map).1 =
  match m_map !! typeid E with
  | Some _ => m_map
  | None => <[typeid E := []]> m_map
  end.
Proof. unfold Emit. by destruct (m_map !! typeid E). Qed.

Lemma Emit_calls E data m_map :
  (Emit E data m_map).2 = Emit_loop E data (handles m_map (typeid E)).
Proof. unfold Emit, handles. by destruct (m_map !! typeid E). Qed.

Lemma handles_Emit E data m_map K :
  handles (Emit E data m_map).1 K = handles m_map K.
Proof.
  rewrite Emit_registry. unfold handles.
  destruct (m_map !! typeid E) as [hs|] eqn:Hlook; [done|].
  destruct (decide (typeid E = K)) as [<-|Hne].
  - by rewrite lookup_insert_eq, Hlook.
  - by rewrite lookup_insert_ne.
Qed.

Lemma Emit_loop_subscriptions E data l :
  Emit_loop E data (subscriptions E l) = (deliveries l data, Returns).
Proof.
  induction l as [|[cm instance] l IH]; [done|].
  simpl. unfold dynamic_cast. simpl. rewrite decide_True by done.
  simpl in IH. by rewrite IH.
Qed.

Lemma invocations_deliveries cm instance l data :
  invocations cm instance (deliveries l data)
  = length (filter (λ s, s = (cm, instance)) l).
Proof.
  unfold invocations, deliveries.
  induction l as [|[cm' instance'] l IH]; [done|].
  simpl. rewrite !filter_cons. simpl.
  destruct (decide (Method cm' instance' = Method cm instance)) as [Heq|Hne].
  - rewrite decide_True by congruence. simpl. by rewrite IH.
  - rewrite decide_False by congruence. done.
Qed.

Lemma arguments_deliveries l data :
  Forall (λ c, arguments c = data) (deliveries l data).
Proof. unfold deliveries. apply Forall_forall. intros c [s [-> _]]%list_elem_of_fmap. done. Qed.

(** [Emit<E>] calls a handle only after its cast to [DelegateHandle<E>]
    succeeded: without a subscription of the pair for [E] itself in the
    sequence, the pair is not called. *)
Lemma Emit_loop_not_subscribed E data cm instance hs :
  Forall (λ h, ∃ T cm' instance', h = subscription T cm' instance') hs →
  subscription E cm instance ∉ hs →
  invocations cm instance (Emit_loop E data hs).1 = 0.
Proof.
  induction 1 as [|h hs (T & cm' & instance' & ->) _ IH]; [done|].
  rewrite not_elem_of_cons. intros [Hne Hnot]. simpl.
  unfold dynamic_cast. simpl. case_decide as HT; [|done]. subst T. simpl.
  specialize (IH Hnot). destruct (Emit_loop E data hs) as [calls outcome].
  simpl in *. unfold invocations. rewrite filter_cons_False; [exact IH|].
  simpl. intros [= -> ->]. done.
Qed.

End EmitFacts.

Lemma count_subscriptions E cm instance l :
  length (filter (λ h, h = subscription E cm instance) (subscriptions E l))
  = length (filter (λ s, s = (cm, instance)) l).
Proof.
  unfold subscriptions.
  induction l as [|[cm' instance'] l IH]; [done|].
  simpl. rewrite !filter_cons. simpl.
  destruct (decide (subscription E cm' instance' = subscription E cm instance))
    as [Heq|Hne].
  - rewrite decide_True by (unfold subscription, Bind_member in Heq; congruence).
    simpl. by rewrite IH.
  - rewrite decide_False by congruence. done.
Qed.

Lemma subscriptions_app E l k :
  subscriptions E (l ++ k) = subscriptions E l ++ subscriptions E k.
Proof. unfold subscriptions. apply map_app. Qed.

Lemma Forall_subscription E hs :
  Forall (λ h, ∃ cm instance, h = subscription E cm instance) hs →
  ∃ l, hs = subscriptions E l.
Proof.
  induction 1 as [|h hs (cm & instance & ->) _ [l ->]].
  - by exists [].
  - by exists ((cm, instance) :: l).
Qed.

(** ** Reachable registries *)

Section Reachable.
Context `{Linker} {Event : Type}.
Implicit Types (m_map : SignalBus) (E T : EventType) (K : type_index)
  (ops : list (Operation Event)).

Lemma well_formed_empty : well_formed ∅.
Proof. intros K. rewrite handles_empty. constructor. Qed.

Lemma well_formed_Bind E cm instance m_map :
  well_formed m_map → well_formed (Bind E cm instance m_map).
Proof.
  intros Hwf K. destruct (decide (typeid E = K)) as [<-|Hne].
  - rewrite handles_Bind_eq. apply Forall_app. split; [apply Hwf|].
    constructor; [eauto 6|constructor].
  - rewrite handles_Bind_ne by done. apply Hwf.
Qed.

Lemma well_formed_Unbind E cm instance m_map :
  well_formed m_map → well_formed (Unbind E cm instance m_map).
Proof.
  intros Hwf K. destruct (decide (typeid E = K)) as [<-|Hne].
  - rewrite handles_Unbind_eq. constructor.
  - rewrite handles_Unbind_ne by done. apply Hwf.
Qed.

Lemma well_formed_Emit E (data : Event) m_map :
  well_formed m_map → well_formed (Emit E data m_map).1.
Proof. intros Hwf K. rewrite handles_Emit. apply Hwf. Qed.

Lemma well_formed_perform m_map (op : Operation Event) :
  well_formed m_map → well_formed (perform m_map op).
Proof.
  destruct op; simpl;
    auto using well_formed_Bind, well_formed_Unbind, well_formed_Emit.
Qed.

Lemma bus_after_snoc ops op :
  bus_after (ops ++ [op]) = perform (bus_after ops) op.
Proof. unfold bus_after. apply foldl_snoc. Qed.

Lemma well_formed_bus_after ops : well_formed (bus_after ops).
Proof.
  induction ops as [|op ops IH] using rev_ind.
  - apply well_formed_empty.
  - rewrite bus_after_snoc. by apply well_formed_perform.
Qed.

(** A well-formed sequence all of whose handles are [DelegateHandle<E>]
    consists of subscriptions of [E]. *)
Lemma well_formed_same_type E m_map :
  well_formed m_map →
  Forall (λ h, handle_type h = E) (handles m_map (typeid E)) →
  ∃ l, handles m_map (typeid E) = subscriptions E l.
Proof.
  intros Hwf Hty. apply Forall_subscription.
  specialize (Hwf (typeid E)). revert Hty.
  induction Hwf as [|h hs (T & cm & instance & _ & ->) _ IH];
    intros Hty; [constructor|].
  apply Forall_cons in Hty as [Hh Hty]. simpl in Hh. subst T.
  constructor; eauto.
Qed.

(** What [Emit] does on a registry whose handles are subscriptions. *)
Lemma Emit_well_formed E (data : Event) m_map l :
  handles m_map (typeid E) = subscriptions E l →
  (Emit E data m_map).2 = (deliveries l data, Returns).
Proof. intros Hl. by rewrite Emit_calls, Hl, Emit_loop_subscriptions. Qed.

Lemma bound_count_subscriptions E cm instance m_map l :
  handles m_map (typeid E) = subscriptions E l →
  bound_count m_map E cm instance
  = length (filter (λ s, s = (cm, instance)) l).
Proof. intros Hl. unfold bound_count. by rewrite Hl, count_subscriptions. Qed.

Lemma bound_count_Bind E cm instance m_map :
  bound_count (Bind E cm instance m_map) E cm instance
  = S (bound_count m_map E cm instance).
Proof.
  unfold bound_count. rewrite handles_Bind_eq, filter_app, length_app.
  rewrite filter_cons_True by done. simpl. lia.
Qed.

End Reachable.

Section UnbindFacts.
Context `{Linker}.
Implicit Types (m_map : SignalBus) (E : EventType).

(** When a handle survives the removal, [Unbind] erases the whole entry. *)
Lemma Unbind_survivor E cm instance m_map hs h :
  m_map !! typeid E = Some hs → h ∈ hs →
  Unbind_pred E cm instance h = false →
  Unbind E cm instance m_map = delete (typeid E) m_map.
Proof.
  intros Hlook Hin Hpred. unfold Unbind. rewrite Hlook.
  assert (Hh : h ∈ erase_remove_if (Unbind_pred E cm instance) hs).
  { unfold erase_remove_if. apply list_elem_of_filter. done. }
  destruct (erase_remove_if _ hs); [|done].
  by apply not_elem_of_nil in Hh.
Qed.

(** After [Unbind], and until the pair is bound for [E] again, the sequence
    under the key of [E] holds subscriptions, none of them the pair's for
    [E]. *)
Lemma handles_after_Unbind {Event : Type} E cm instance m_map
    (ops : list (Operation Event)) :
  Forall (λ op, op ≠ CallBind E cm instance) ops →
  Forall (λ h, ∃ T cm' instance', h = subscription T cm' instance')
    (handles (foldl perform (Unbind E cm instance m_map) ops) (typeid E)) ∧
  subscription E cm instance
    ∉ handles (foldl perform (Unbind E cm instance m_map) ops) (typeid E).
Proof.
  induction ops as [|op ops IH] using rev_ind; intros Hops.
  - simpl. rewrite handles_Unbind_eq. split; [constructor|apply not_elem_of_nil].
  - apply Forall_app in Hops as [Hops Hop%Forall_inv].
    destruct (IH Hops) as [Hsub Hnot]. rewrite foldl_snoc.
    destruct op as [T cm' instance'|T cm' instance'|T data]; simpl.
    + destruct (decide (typeid T = typeid E)) as [Heq|Hne].
      * rewrite <- Heq, handles_Bind_eq, Heq. split.
        -- apply Forall_app. split; [done|]. constructor; [eauto|constructor].
        -- rewrite elem_of_app, list_elem_of_singleton.
           intros [?|Hs]; [done|]. apply Hop.
           unfold subscription in Hs. by simplify_eq.
      * by rewrite handles_Bind_ne.
    + destruct (decide (typeid T = typeid E)) as [Heq|Hne].
      * rewrite <- Heq, handles_Unbind_eq.
        split; [constructor|apply not_elem_of_nil].
      * by rewrite handles_Unbind_ne.
    + by rewrite handles_Emit.
Qed.

End UnbindFacts.

Lemma filter_absent {A} `{EqDecision A} (x : A) (l : list A) :
  x ∉ l → filter (λ y, y = x) l = [].
Proof.
  induction l as [|y l IH]; [done|]. rewrite not_elem_of_cons.
  intros [Hne Hnot]. rewrite filter_cons_False by congruence. auto.
Qed.

(** * The claims *)

(** C8. Invoking a delegate that was never bound raises [BadDelegateCall];
    invoking a delegate after either [Bind] overload that returns never
    does, it calls the bound target; and a null [m_stub] is the only
    condition under which the call operator raises. *)
Theorem invoke_raises_iff_unbound {Args : Type} (args : Args) :
  invoke Delegate_default args = inl bad_delegate_call ∧
  (∀ target d, invoke (Bind_to target d) args = inr (MkCall target args)) ∧
  (∀ d, (∃ e, invoke d args = inl e) ↔ m_stub d = None).
Proof.
  split; [reflexivity|]. split; [intros target d; apply invoke_Bind_to|].
  intros d. unfold invoke. destruct (m_stub d) as [s|]; split.
  - intros [e [=]].
  - intros [=].
  - done.
  - eauto.
Qed.

(** C9. A second [Bind] replaces the first: the delegate is the one the
    second [Bind] alone would have produced, and an invocation calls the
    second target and nothing else. *)
Theorem rebind_overwrites {Args : Type} (first second : Callee) (d : Delegate)
    (args : Args) :
  Bind_to second (Bind_to first d) = Bind_to second Delegate_default ∧
  invoke (Bind_to second (Bind_to first d)) args = inr (MkCall second args).
Proof. split; [apply Bind_to_overwrites|apply invoke_Bind_to]. Qed.

(** C10. [Matches] is false on a default-constructed delegate, for every
    instance pointer (null included) and every [<Class, MemberFunction>],
    so the predicate of [Unbind] never selects a handle holding one and
    [remove_if] keeps all such handles. *)
Theorem Matches_never_bound `{Linker} (cm : MemberFunction) (instance : pointer) :
  Matches Delegate_default cm instance = false ∧
  (∀ E T, Unbind_pred E cm instance
            {| handle_type := T; m_delegate := Delegate_default |} = false) ∧
  (∀ E hs,
     filter (λ h, m_delegate h = Delegate_default)
       (erase_remove_if (Unbind_pred E cm instance) hs)
     = filter (λ h, m_delegate h = Delegate_default) hs).
Proof.
  assert (Hm : Matches Delegate_default cm instance = false).
  { unfold Matches. simpl. apply andb_false_r. }
  assert (Hp : ∀ E h, m_delegate h = Delegate_default →
                      Unbind_pred E cm instance h = false).
  { intros E h Hh. unfold Unbind_pred, dynamic_cast.
    case_decide; [|done]. unfold DelegateHandle_Matches. by rewrite Hh. }
  split; [done|]. split; [intros E T; by apply Hp|].
  intros E hs. unfold erase_remove_if.
  induction hs as [|h hs IH]; [done|].
  rewrite (filter_cons (λ x, Unbind_pred E cm instance x = false)).
  case_decide as Hsel.
  - rewrite !filter_cons. case_decide; by rewrite IH.
  - rewrite (filter_cons (λ h, m_delegate h = Delegate_default) h hs).
    case_decide as Hd; [|done]. destruct Hsel. by apply Hp.
Qed.

(** C3. What [Emit] does after a [Bind] that names the event type with a
    [const], evaluated on the code: [Bind<const StringEvent, A, &A::Say>]
    files its handle under the key of [StringEvent]; the object at address
    1 is then bound once for [StringEvent]; [Emit<StringEvent>] casts the
    first handle to [DelegateHandle<StringEvent>], gets null and
    dereferences it: no handler is called and the call does not return. *)
Theorem Emit_after_Bind_of_const_type :
  typeid const_StringEvent = typeid StringEvent ∧
  bound_count
    (Bind StringEvent A_Say 1%N (Bind const_StringEvent A_Say 2%N ∅))
    StringEvent A_Say 1%N = 1 ∧
  (Emit StringEvent "Test1"
     (Bind StringEvent A_Say 1%N (Bind const_StringEvent A_Say 2%N ∅))).2
  = ([], Undefined).
Proof. repeat split. Qed.

(** C4 as stated fails: on a default-constructed bus the event type has no
    handlers, and [Emit] changes the registry. *)
Lemma Emit_changes_empty_registry :
  handles ∅ (typeid StringEvent) = [] ∧
  (Emit StringEvent "Test1" (∅ : SignalBus)).1 ≠ ∅.
Proof.
  split; [reflexivity|]. intros Heq.
  assert (Hlook : (Emit StringEvent "Test1" (∅ : SignalBus)).1
                    !! typeid StringEvent = Some []) by reflexivity.
  rewrite Heq, lookup_empty in Hlook. discriminate.
Qed.

(** C4, amended. When the event type has no handlers, [Emit] returns
    normally without calling anything and leaves the handle sequence of
    every event type as it was; the registry itself is unchanged when it
    already has an entry for the type, and gains an empty entry for it
    otherwise. *)
Theorem Emit_without_handlers {Event : Type} (E : EventType) (data : Event)
    (m_map : SignalBus) :
  handles m_map (typeid E) = [] →
  (Emit E data m_map).2 = ([], Returns) ∧
  (∀ K, handles (Emit E data m_map).1 K = handles m_map K) ∧
  (is_Some (m_map !! typeid E) → (Emit E data m_map).1 = m_map) ∧
  (m_map !! typeid E = None →
   (Emit E data m_map).1 = <[typeid E := []]> m_map).
Proof.
  intros Hnone. split; [by rewrite Emit_calls, Hnone|].
  split; [intros K; apply handles_Emit|].
  rewrite Emit_registry. split.
  - by intros [hs ->].
  - by intros ->.
Qed.

Lemma Emit_without_handlers_witness :
  handles (∅ : SignalBus) (typeid StringEvent) = [] ∧
  (Emit StringEvent "Test1" (∅ : SignalBus)).2 = ([], Returns) ∧
  (∀ K, handles (Emit StringEvent "Test1" (∅ : SignalBus)).1 K = handles ∅ K).
Proof.
  split; [reflexivity|].
  pose proof (Emit_without_handlers StringEvent "Test1" ∅ eq_refl)
    as (Hcalls & Hhandles & _).
  split; [exact Hcalls|exact Hhandles].
Defined.

(** C5. After one [Unbind<E, Class, MemberFunction>(instance)], on any
    registry: the pair is bound zero times for [E], and whatever calls
    follow, short of binding that very pair for [E] again, no [Emit] of [E]
    calls the pair. *)
Theorem Unbind_silences_pair `{Linker} {Event : Type} (m_map : SignalBus)
    (E : EventType) (cm : MemberFunction) (instance : pointer)
    (ops : list (Operation Event)) (data : Event) :
  Forall (λ op, op ≠ CallBind E cm instance) ops →
  bound_count (Unbind E cm instance m_map) E cm instance = 0 ∧
  invocations cm instance
    (Emit E data (foldl perform (Unbind E cm instance m_map) ops)).2.1 = 0.
Proof.
  intros Hops. split.
  - unfold bound_count. by rewrite handles_Unbind_eq.
  - destruct (handles_after_Unbind E cm instance m_map ops Hops)
      as [Hsub Hnot].
    rewrite Emit_calls. by apply Emit_loop_not_subscribed.
Qed.

Lemma Unbind_silences_pair_witness :
  Forall (λ op, op ≠ CallBind StringEvent A_Say 1%N)
    [CallEmit StringEvent "Test1"; CallBind StringEvent A_Hear 1%N] ∧
  invocations A_Say 1%N
    (Emit StringEvent "Test2"
       (foldl (perform (H := folded_code))
          (Unbind (H := folded_code) StringEvent A_Say 1%N
             (Bind StringEvent A_Say 1%N (Bind StringEvent A_Say 1%N ∅)))
          [CallEmit StringEvent "Test1"; CallBind StringEvent A_Hear 1%N])).2.1
  = 0.
Proof.
  assert (Hops : Forall (λ op, op ≠ CallBind StringEvent A_Say 1%N)
            [CallEmit StringEvent "Test1"; CallBind StringEvent A_Hear 1%N]).
  { repeat constructor; discriminate. }
  split; [exact Hops|].
  apply (Unbind_silences_pair (H := folded_code)
           (Bind StringEvent A_Say 1%N (Bind StringEvent A_Say 1%N ∅))
           StringEvent A_Say 1%N _ "Test2" Hops).
Defined.

(** C6. What [Emit] does to the order when a [Bind] in between names the
    event type with a [const], evaluated on the code: the objects at
    addresses 1, 2 and 3 are bound for [StringEvent] in that order, and
    between the first and the second a handler is bound with
    [Bind<const StringEvent, A, &A::Say>]; [Emit<StringEvent>] calls the
    first, then dereferences the null cast of the handle that follows: the
    second and the third are not called. *)
Theorem Emit_order_cut_by_const_type :
  handles
    (Bind StringEvent A_Say 3%N
       (Bind StringEvent A_Say 2%N
          (Bind const_StringEvent A_Say 4%N (Bind StringEvent A_Say 1%N ∅))))
    (typeid StringEvent)
  = [subscription StringEvent A_Say 1%N;
     subscription const_StringEvent A_Say 4%N;
     subscription StringEvent A_Say 2%N;
     subscription StringEvent A_Say 3%N] ∧
  (Emit StringEvent "Test1"
     (Bind StringEvent A_Say 3%N
        (Bind StringEvent A_Say 2%N
           (Bind const_StringEvent A_Say 4%N (Bind StringEvent A_Say 1%N ∅))))).2
  = ([delivery A_Say 1%N "Test1"], Undefined).
Proof. split; reflexivity. Qed.

(** ** The demonstration program *)

(** [main] of [FluczakSignalbus.cpp]: one object of class [A] bound to
    [A::Say], then two events; each is delivered once, with its own text. *)
Example main_program `{Linker} :
  let bus := Bind StringEvent A_Say 1%N ∅ in
  let '(bus1, round1) := Emit StringEvent "Test1" bus in
  let '(bus2, round2) := Emit StringEvent "Test2" bus1 in
  round1 = ([delivery A_Say 1%N "Test1"], Returns) ∧
  round2 = ([delivery A_Say 1%N "Test2"], Returns) ∧
  bus2 = bus.
Proof. repeat split. Qed.

(** ** [Unbind] with a second subscriber present *)

Section TwoSubscribers.
Context `{Linker}.

(** Two objects of class [A], at addresses 1 and 2, bound to [A::Say]. *)
Lemma Unbind_first_of_two :
  Unbind StringEvent A_Say 1%N
    (Bind StringEvent A_Say 2%N (Bind StringEvent A_Say 1%N ∅)) = ∅.
Proof.
  rewrite (Unbind_survivor StringEvent A_Say 1%N _
             [subscription StringEvent A_Say 1%N;
              subscription StringEvent A_Say 2%N]
             (subscription StringEvent A_Say 2%N)).
  - reflexivity.
  - reflexivity.
  - apply elem_of_cons. right. apply elem_of_cons. by left.
  - by apply Unbind_pred_other_instance.
Qed.

(** Only the object at address 2 is bound; [Unbind] names the one at 1. *)
Lemma Unbind_absent_pair :
  Unbind StringEvent A_Say 1%N (Bind StringEvent A_Say 2%N ∅) = ∅.
Proof.
  rewrite (Unbind_survivor StringEvent A_Say 1%N _
             [subscription StringEvent A_Say 2%N]
             (subscription StringEvent A_Say 2%N)).
  - reflexivity.
  - reflexivity.
  - apply elem_of_cons. by left.
  - by apply Unbind_pred_other_instance.
Qed.

End TwoSubscribers.

(** C1. What [Unbind] does to the entry, evaluated on the code: with two
    objects bound, unbinding the first leaves a non-empty remainder and the
    entry of the event type is erased; on an entry that is empty after the
    removal (here one created by an earlier [Emit]) the entry is kept. *)
Theorem Unbind_entry_inverted `{Linker} :
  erase_remove_if (Unbind_pred StringEvent A_Say 1%N)
    (handles (Bind StringEvent A_Say 2%N (Bind StringEvent A_Say 1%N ∅))
       (typeid StringEvent)) ≠ [] ∧
  Unbind StringEvent A_Say 1%N
    (Bind StringEvent A_Say 2%N (Bind StringEvent A_Say 1%N ∅))
    !! typeid StringEvent = None ∧
  Unbind StringEvent A_Say 1%N (Emit StringEvent "Test1" ∅).1
    !! typeid StringEvent = Some [].
Proof.
  split; [|split].
  - intros Hnil.
    apply (filter_nil_not_elem_of _ _ (subscription StringEvent A_Say 2%N))
      in Hnil.
    + apply Hnil. apply elem_of_cons. right. apply elem_of_cons. by left.
    + by apply Unbind_pred_other_instance.
  - rewrite Unbind_first_of_two. apply lookup_empty.
  - rewrite Unbind_lookup_eq. reflexivity.
Qed.

(** C2. What [Unbind] does for a pair that is not bound, evaluated on the
    code: the object at address 2 is bound and receives the event; after
    [Unbind] for the object at address 1, which was never bound, the
    registry is empty and [Emit] calls nothing. *)
Theorem Unbind_of_unbound_pair_drops_others `{Linker} :
  bound_count (Bind StringEvent A_Say 2%N ∅) StringEvent A_Say 1%N = 0 ∧
  (Emit StringEvent "Test1" (Bind StringEvent A_Say 2%N ∅)).2
  = ([delivery A_Say 2%N "Test1"], Returns) ∧
  Unbind StringEvent A_Say 1%N (Bind StringEvent A_Say 2%N ∅) = ∅ ∧
  (Emit StringEvent "Test1"
     (Unbind StringEvent A_Say 1%N (Bind StringEvent A_Say 2%N ∅))).2
  = ([], Returns).
Proof.
  split; [reflexivity|]. split; [reflexivity|].
  rewrite Unbind_absent_pair. split; reflexivity.
Qed.

(** C7. Independent addressing of two objects, evaluated on the code: both
    objects are bound to [A::Say] and both receive the event; after [Unbind]
    for the object at address 1 alone, [Emit] no longer calls the object at
    address 2 either. *)
Theorem Unbind_of_one_instance_drops_the_other `{Linker} :
  (Emit StringEvent "Test1"
     (Bind StringEvent A_Say 2%N (Bind StringEvent A_Say 1%N ∅))).2
  = ([delivery A_Say 1%N "Test1"; delivery A_Say 2%N "Test1"], Returns) ∧
  bound_count
    (Unbind StringEvent A_Say 1%N
       (Bind StringEvent A_Say 2%N (Bind StringEvent A_Say 1%N ∅)))
    StringEvent A_Say 2%N = 0 ∧
  (Emit StringEvent "Test1"
     (Unbind StringEvent A_Say 1%N
        (Bind StringEvent A_Say 2%N (Bind StringEvent A_Say 1%N ∅)))).2
  = ([], Returns).
Proof.
  split; [reflexivity|]. rewrite Unbind_first_of_two. split; reflexivity.
Qed.

(** * Further properties *)

(** ** Reachable registries *)

(** On a registry that a default-constructed bus reaches, when every handle
    filed under the key of [E] is a [DelegateHandle<E>] (no [Bind] still in
    the sequence named a [const], [volatile] or reference variant of [E]):
    each of these handles holds a delegate bound by [Bind(Class* )], and
    [Emit<E>] returns after calling every handler as many times as it is
    bound, each time with the emitted value. *)
Theorem reachable_Emit_returns `{Linker} {Event : Type}
    (ops : list (Operation Event)) (E : EventType) (data : Event) :
  Forall (λ h, handle_type h = E) (handles (bus_after ops) (typeid E)) →
  Forall (λ h, ∃ cm instance, h = subscription E cm instance)
    (handles (bus_after ops) (typeid E)) ∧
  ∃ calls,
    (Emit E data (bus_after ops)).2 = (calls, Returns) ∧
    length calls = length (handles (bus_after ops) (typeid E)) ∧
    (∀ cm instance,
       invocations cm instance calls
       = bound_count (bus_after ops) E cm instance) ∧
    Forall (λ c, arguments c = data) calls.
Proof.
  intros Hty.
  destruct (well_formed_same_type E _ (well_formed_bus_after ops) Hty)
    as [l Hl].
  split.
  - rewrite Hl. unfold subscriptions. apply Forall_forall.
    intros h [s [-> _]]%list_elem_of_fmap. eauto.
  - exists (deliveries l data). split; [by apply Emit_well_formed|].
    split; [|split].
    + rewrite Hl. unfold deliveries, subscriptions. by rewrite !length_map.
    + intros cm instance. rewrite invocations_deliveries.
      symmetry. by apply bound_count_subscriptions.
    + apply arguments_deliveries.
Qed.

Lemma reachable_Emit_returns_witness :
  Forall (λ h, handle_type h = StringEvent)
    (handles
       (bus_after (H := folded_code) (Event := string)
          [CallBind StringEvent A_Say 1%N; CallBind IntEvent A_Hear 2%N;
           CallBind StringEvent A_Say 1%N])
       (typeid StringEvent)) ∧
  ∃ calls,
    (Emit StringEvent "Test1"
       (bus_after (H := folded_code) (Event := string)
          [CallBind StringEvent A_Say 1%N; CallBind IntEvent A_Hear 2%N;
           CallBind StringEvent A_Say 1%N])).2
    = (calls, Returns) ∧
    invocations A_Say 1%N calls = 2.
Proof.
  assert (Hty : Forall (λ h, handle_type h = StringEvent)
            (handles
               (bus_after (H := folded_code) (Event := string)
                  [CallBind StringEvent A_Say 1%N; CallBind IntEvent A_Hear 2%N;
                   CallBind StringEvent A_Say 1%N])
               (typeid StringEvent))).
  { repeat constructor. }
  split; [exact Hty|].
  destruct (reachable_Emit_returns (H := folded_code)
              [CallBind StringEvent A_Say 1%N; CallBind IntEvent A_Hear 2%N;
               CallBind StringEvent A_Say 1%N] StringEvent "Test1" Hty)
    as (_ & calls & Hcalls & _ & Hinv & _).
  exists calls. split; [exact Hcalls|]. rewrite Hinv. reflexivity.
Defined.

Section History.
Context `{Linker} {Event : Type}.



End History.



(** ** Frame and composition *)

(** [Unbind] for one event type leaves the entry of every other event type
    as it was, and [Emit] of another type delivers as before. *)
Theorem Unbind_other_event_types `{Linker} {Event : Type} (E T : EventType)
    (cm : MemberFunction) (instance : pointer) (m_map : SignalBus)
    (data : Event) :
  typeid E ≠ typeid T →
  Unbind E cm instance m_map !! typeid T = m_map !! typeid T ∧
  (Emit T data (Unbind E cm instance m_map)).2 = (Emit T data m_map).2.
Proof.
  intros Hne. split; [by apply Unbind_lookup_ne|].
  by rewrite !Emit_calls, handles_Unbind_ne.
Qed.

Lemma Unbind_other_event_types_witness :
  typeid IntEvent ≠ typeid StringEvent ∧
  (Emit StringEvent "Test1"
     (Unbind (H := separate_code) IntEvent A_Say 1%N
        (Bind StringEvent A_Say 1%N ∅))).2
  = (Emit StringEvent "Test1" (Bind StringEvent A_Say 1%N ∅)).2.
Proof.
  assert (Hne : typeid IntEvent ≠ typeid StringEvent) by discriminate.
  split; [exact Hne|].
  apply (Unbind_other_event_types (H := separate_code) IntEvent StringEvent
           A_Say 1%N (Bind StringEvent A_Say 1%N ∅) "Test1" Hne).
Defined.

(** After [Unbind] for an event type, whatever pair it names and whatever
    the registry held, the handle sequence of that type is empty and [Emit]
    of the type calls nothing. *)
Theorem Unbind_clears_event_type `{Linker} {Event : Type} (E : EventType)
    (cm : MemberFunction) (instance : pointer) (m_map : SignalBus)
    (data : Event) :
  handles (Unbind E cm instance m_map) (typeid E) = [] ∧
  (Emit E data (Unbind E cm instance m_map)).2 = ([], Returns).
Proof.
  split; [apply handles_Unbind_eq|].
  by rewrite Emit_calls, handles_Unbind_eq.
Qed.

(** A second [Unbind] for the same event type, for any pair, changes
    nothing. *)
Theorem Unbind_twice `{Linker} (E : EventType) (cm cm' : MemberFunction)
    (instance instance' : pointer) (m_map : SignalBus) :
  Unbind E cm' instance' (Unbind E cm instance m_map)
  = Unbind E cm instance m_map.
Proof.
  pose proof (Unbind_lookup_eq E cm instance m_map) as Hlook.
  unfold Unbind at 1.
  destruct (m_map !! typeid E) as [second|].
  - destruct (vector_empty _); rewrite Hlook; [|done].
    simpl. by apply insert_id.
  - by rewrite Hlook.
Qed.

(** [Bind] for one event type leaves the entry of every other event type as
    it was, and [Emit] of another type delivers as before. *)
Theorem Bind_other_event_types {Event : Type} (E T : EventType)
    (cm : MemberFunction) (instance : pointer) (m_map : SignalBus)
    (data : Event) :
  typeid E ≠ typeid T →
  Bind E cm instance m_map !! typeid T = m_map !! typeid T ∧
  (Emit T data (Bind E cm instance m_map)).2 = (Emit T data m_map).2.
Proof.
  intros Hne. split.
  - unfold Bind. by rewrite lookup_insert_ne.
  - by rewrite !Emit_calls, handles_Bind_ne.
Qed.

Lemma Bind_other_event_types_witness :
  typeid IntEvent ≠ typeid StringEvent ∧
  (Emit StringEvent "Test1"
     (Bind IntEvent A_Hear 2%N (Bind StringEvent A_Say 1%N ∅))).2
  = (Emit StringEvent "Test1" (Bind StringEvent A_Say 1%N ∅)).2.
Proof.
  assert (Hne : typeid IntEvent ≠ typeid StringEvent) by discriminate.
  split; [exact Hne|].
  apply (Bind_other_event_types IntEvent StringEvent A_Hear 2%N
           (Bind StringEvent A_Say 1%N ∅) "Test1" Hne).
Defined.

(** [Bind] calls for different event types commute. *)
Theorem Bind_commutes (E T : EventType) (cm cm' : MemberFunction)
    (instance instance' : pointer) (m_map : SignalBus) :
  typeid E ≠ typeid T →
  Bind E cm instance (Bind T cm' instance' m_map)
  = Bind T cm' instance' (Bind E cm instance m_map).
Proof.
  intros Hne. unfold Bind.
  rewrite (lookup_insert_ne _ (typeid T) (typeid E)) by done.
  rewrite (lookup_insert_ne _ (typeid E) (typeid T)) by done.
  by apply insert_insert_ne.
Qed.

Lemma Bind_commutes_witness :
  typeid StringEvent ≠ typeid IntEvent ∧
  Bind StringEvent A_Say 1%N (Bind IntEvent A_Hear 2%N ∅)
  = Bind IntEvent A_Hear 2%N (Bind StringEvent A_Say 1%N ∅).
Proof.
  assert (Hne : typeid StringEvent ≠ typeid IntEvent) by discriminate.
  split; [exact Hne|].
  apply (Bind_commutes StringEvent IntEvent A_Say A_Hear 1%N 2%N ∅ Hne).
Defined.

(** [Bind] followed by [Unbind] of the same pair, on a registry with no
    handler for the event type, restores the handle sequence of every event
    type. *)
Theorem Bind_then_Unbind `{Linker} (E : EventType) (cm : MemberFunction)
    (instance : pointer) (m_map : SignalBus) :
  handles m_map (typeid E) = [] →
  ∀ K, handles (Unbind E cm instance (Bind E cm instance m_map)) K
       = handles m_map K.
Proof.
  intros Hnone K. destruct (decide (typeid E = K)) as [<-|Hne].
  - by rewrite handles_Unbind_eq.
  - by rewrite handles_Unbind_ne, handles_Bind_ne.
Qed.

Lemma Bind_then_Unbind_witness :
  handles (Bind IntEvent A_Hear 2%N ∅) (typeid StringEvent) = [] ∧
  ∀ K, handles (Unbind (H := folded_code) StringEvent A_Say 1%N
                  (Bind StringEvent A_Say 1%N (Bind IntEvent A_Hear 2%N ∅))) K
       = handles (Bind IntEvent A_Hear 2%N ∅) K.
Proof.
  split; [reflexivity|].
  apply (Bind_then_Unbind (H := folded_code) StringEvent A_Say 1%N
           (Bind IntEvent A_Hear 2%N ∅)).
  reflexivity.
Defined.

(** An earlier [Emit], of any type, does not change what a later [Emit]
    delivers, and a second [Emit] of the same type leaves the registry as
    the first left it. *)
Theorem Emit_after_Emit {Event : Type} (E T : EventType) (data data' : Event)
    (m_map : SignalBus) :
  (Emit T data' (Emit E data m_map).1).2 = (Emit T data' m_map).2 ∧
  (Emit E data' (Emit E data m_map).1).1 = (Emit E data m_map).1.
Proof.
  split.
  - by rewrite !Emit_calls, handles_Emit.
  - rewrite (Emit_registry E data' (Emit E data m_map).1).
    rewrite (Emit_registry E data m_map).
    destruct (m_map !! typeid E) as [hs|] eqn:Hlook.
    + by rewrite Hlook.
    + by rewrite lookup_insert_eq.
Qed.

(** Which entries exist: [Bind] and [Emit] add the entry of their event type
    to those present, [Unbind] adds none. *)
Theorem registry_entries `{Linker} {Event : Type} (E : EventType)
    (cm : MemberFunction) (instance : pointer) (data : Event)
    (m_map : SignalBus) :
  dom (Bind E cm instance m_map) = {[typeid E]} ∪ dom m_map ∧
  dom (Emit E data m_map).1 = {[typeid E]} ∪ dom m_map ∧
  dom (Unbind E cm instance m_map) ⊆ dom m_map.
Proof.
  split; [|split].
  - unfold Bind. apply dom_insert_L.
  - rewrite Emit_registry. destruct (m_map !! typeid E) as [hs|] eqn:Hlook.
    + symmetry. apply subseteq_union_1_L, singleton_subseteq_l.
      apply elem_of_dom. eauto.
    + apply dom_insert_L.
  - unfold Unbind.
    destruct (m_map !! typeid E) as [second|] eqn:Hlook; [|done].
    assert (Hin : {[typeid E]} ⊆ dom m_map).
    { apply singleton_subseteq_l, elem_of_dom. eauto. }
    destruct (negb _).
    + rewrite dom_delete_L. apply subseteq_difference_l. done.
    + rewrite dom_insert_L. by apply union_least.
Qed.

(** ** An unbound delegate in a sequence *)

Lemma Emit_loop_subscription {Event : Type} E (data : Event) cm instance hs :
  Emit_loop E data (subscription E cm instance :: hs)
  = (delivery cm instance data :: (Emit_loop E data hs).1,
     (Emit_loop E data hs).2).
Proof.
  simpl. unfold dynamic_cast. simpl. rewrite decide_True by done. simpl.
  by destruct (Emit_loop E data hs).
Qed.

Lemma Emit_loop_app {Event : Type} E (data : Event) l rest :
  Emit_loop E data (subscriptions E l ++ rest)
  = (deliveries l data ++ (Emit_loop E data rest).1,
     (Emit_loop E data rest).2).
Proof.
  induction l as [|[cm instance] l IH].
  - simpl. by destruct (Emit_loop E data rest).
  - change (subscriptions E ((cm, instance) :: l) ++ rest)
      with (subscription E cm instance :: (subscriptions E l ++ rest)).
    by rewrite Emit_loop_subscription, IH.
Qed.

(** Were a handle with a never-bound delegate stored in the sequence of its
    event type, [Emit] would call the handlers before it, in order, then
    raise [BadDelegateCall] without calling the handlers after it; the
    registry is not changed. *)
Theorem Emit_stops_at_unbound_delegate {Event : Type} (E : EventType)
    (data : Event) (m_map : SignalBus) (l : list (MemberFunction * pointer))
    (h : DelegateHandle) (rest : list DelegateHandle) :
  m_map !! typeid E = Some (subscriptions E l ++ h :: rest) →
  handle_type h = E →
  m_stub (m_delegate h) = None →
  Emit E data m_map
  = (m_map, (deliveries l data, Throws bad_delegate_call)).
Proof.
  intros Hlook Htype Hstub. unfold Emit. rewrite Hlook, Emit_loop_app.
  simpl. unfold dynamic_cast. rewrite decide_True by done.
  unfold DelegateHandle_Emit. rewrite invoke_unbound by done.
  simpl. by rewrite app_nil_r.
Qed.

Lemma Emit_stops_at_unbound_delegate_witness :
  Emit StringEvent "Test1"
    ({[ typeid StringEvent :=
          [subscription StringEvent A_Say 1%N;
           {| handle_type := StringEvent; m_delegate := Delegate_default |};
           subscription StringEvent A_Hear 2%N] ]} : SignalBus)
  = ({[ typeid StringEvent :=
          [subscription StringEvent A_Say 1%N;
           {| handle_type := StringEvent; m_delegate := Delegate_default |};
           subscription StringEvent A_Hear 2%N] ]},
     ([delivery A_Say 1%N "Test1"], Throws bad_delegate_call)).
Proof.
  apply (Emit_stops_at_unbound_delegate StringEvent "Test1" _
           [(A_Say, 1%N)]
           {| handle_type := StringEvent; m_delegate := Delegate_default |}
           [subscription StringEvent A_Hear 2%N]);
    reflexivity.
Defined.

(** ** [Matches] and the removal step of [Unbind] *)

Lemma folded_code_folds : folds_member_lambdas folded_code.
Proof.
  intros cm cm'. unfold code_address, folded_code. split.
  - intros Heq. apply (inj encode) in Heq. destruct cm, cm'. by simplify_eq/=.
  - by intros ->.
Qed.

Lemma separate_code_apart : keeps_Matches_apart separate_code.
Proof.
  intros s cm Heq. unfold code_address, separate_code in Heq.
  apply (inj encode) in Heq.
  destruct s as [[]|?|[]|[]], cm; by simplify_eq/=.
Qed.

Lemma filter_erase_remove_if {A} (P : A → Prop) `{∀ x, Decision (P x)}
    (pred : A → bool) (v : list A) :
  (∀ x, P x → pred x = false) →
  filter P (erase_remove_if pred v) = filter P v.
Proof.
  intros Hkeep. unfold erase_remove_if.
  induction v as [|x v IH]; [done|].
  rewrite (filter_cons (λ x, pred x = false)).
  destruct (decide (pred x = false)) as [Hx|Hx].
  - rewrite !filter_cons. by rewrite IH.
  - rewrite (filter_cons P x v).
    destruct (decide (P x)) as [HP|HP]; [|done]. destruct Hx. by apply Hkeep.
Qed.

(** In every build, [Matches] returns true only on a bound delegate whose
    stored instance pointer is the given one. *)
Theorem Matches_true_only_if `{Linker} (d : Delegate) (cm : MemberFunction)
    (instance : pointer) :
  Matches d cm instance = true →
  m_instance d = instance ∧ is_Some (m_stub d).
Proof.
  intros [Hi (s & Hs & _)]%Matches_spec. split; [done|]. rewrite Hs. eauto.
Qed.

Lemma Matches_true_only_if_witness :
  Matches (H := folded_code) (Bind_member A_Say 1%N Delegate_default)
    A_Say 1%N = true ∧
  m_instance (Bind_member A_Say 1%N Delegate_default) = 1%N ∧
  is_Some (m_stub (Bind_member A_Say 1%N Delegate_default)).
Proof.
  split; [reflexivity|].
  apply (Matches_true_only_if (H := folded_code)
           (Bind_member A_Say 1%N Delegate_default) A_Say 1%N).
  reflexivity.
Defined.

(** In every build, the removal step of [Unbind] keeps, in their order, the
    handles of another event type and the handles whose delegate holds
    another instance pointer. *)
Theorem remove_if_keeps_other_instances `{Linker} (E : EventType)
    (cm : MemberFunction) (instance : pointer) (hs : list DelegateHandle) :
  filter (λ h, handle_type h ≠ E ∨ m_instance (m_delegate h) ≠ instance)
    (erase_remove_if (Unbind_pred E cm instance) hs)
  = filter (λ h, handle_type h ≠ E ∨ m_instance (m_delegate h) ≠ instance) hs.
Proof.
  apply filter_erase_remove_if. intros h [Htype|Hinst].
  - by apply Unbind_pred_other_type.
  - unfold Unbind_pred, dynamic_cast. case_decide; [|done].
    by apply Matches_other_instance.
Qed.

Lemma Matches_Bind_member_folded (L : Linker) cm cm' c instance d :
  folds_member_lambdas L →
  Matches (Bind_member cm c d) cm' instance = true ↔ c = instance ∧ cm = cm'.
Proof.
  intros Hfold. rewrite Matches_spec. simpl. split.
  - intros [-> (s & [= <-] & Hs)]. split; [done|]. by apply Hfold.
  - intros [-> ->]. split; [done|]. exists (MemberLambda cm').
    split; [done|]. by apply Hfold.
Qed.

(** When the build folds the lambda of [Matches] with the lambda of the
    non-const [Bind] of the same [<Class, MemberFunction>] and no other, the
    removal step of [Unbind] takes out of a sequence of subscriptions
    exactly those of the given pair and keeps the others in their order. *)
Theorem removal_when_folded (L : Linker) (E : EventType)
    (cm : MemberFunction) (instance : pointer)
    (l : list (MemberFunction * pointer)) :
  folds_member_lambdas L →
  erase_remove_if (Unbind_pred E cm instance) (subscriptions E l)
  = subscriptions E (filter (λ s, s ≠ (cm, instance)) l).
Proof.
  intros Hfold. unfold erase_remove_if, subscriptions.
  induction l as [|[cm' instance'] l IH]; [done|].
  simpl. rewrite !filter_cons. simpl.
  destruct (decide ((cm', instance') = (cm, instance))) as [[= -> ->]|Hne].
  - assert (Hm : Unbind_pred E cm instance (subscription E cm instance) = true).
    { rewrite Unbind_pred_same_type by done.
      by apply (Matches_Bind_member_folded L). }
    rewrite Hm. rewrite decide_False by done.
    rewrite decide_False by (intros Hn; by apply Hn). exact IH.
  - assert (Hm : Unbind_pred E cm instance (subscription E cm' instance')
                 = false).
    { rewrite Unbind_pred_same_type by done. apply not_true_is_false.
      intros Hm. simpl in Hm.
      apply (Matches_Bind_member_folded L) in Hm as [-> ->]; done. }
    rewrite Hm. rewrite !decide_True by done. simpl. by rewrite IH.
Qed.

Lemma removal_when_folded_witness :
  folds_member_lambdas folded_code ∧
  erase_remove_if (Unbind_pred (H := folded_code) StringEvent A_Say 1%N)
    (subscriptions StringEvent
       [(A_Say, 1%N); (A_Hear, 1%N); (A_Say, 2%N); (A_Say, 1%N)])
  = subscriptions StringEvent [(A_Hear, 1%N); (A_Say, 2%N)].
Proof.
  split; [exact folded_code_folds|].
  apply (removal_when_folded folded_code StringEvent A_Say 1%N
           [(A_Say, 1%N); (A_Hear, 1%N); (A_Say, 2%N); (A_Say, 1%N)]
           folded_code_folds).
Defined.

(** When the build gives the lambda of [Matches] code of its own, [Matches]
    is false on every delegate bound by a [Bind] that returns, and the
    removal step of [Unbind] takes nothing out of a sequence of
    subscriptions. *)
Theorem Matches_when_apart (L : Linker) (target : Callee) (d : Delegate)
    (cm : MemberFunction) (instance : pointer) :
  keeps_Matches_apart L →
  Matches (Bind_to target d) cm instance = false ∧
  ∀ E l, erase_remove_if (Unbind_pred E cm instance) (subscriptions E l)
         = subscriptions E l.
Proof.
  intros Hapart.
  assert (Hno : ∀ d', (∀ cm', m_stub d' ≠ Some (MatchesLambda cm')) →
                      Matches d' cm instance = false).
  { intros d' Hd'. apply not_true_is_false.
    intros [_ (s & Hs & Haddr)]%Matches_spec.
    apply Hapart in Haddr as ->. by apply (Hd' cm). }
  split.
  - apply Hno. intros cm'. by destruct target.
  - intros E l. unfold erase_remove_if, subscriptions.
    induction l as [|[cm' instance'] l IH]; [done|].
    simpl. rewrite filter_cons_True; [by rewrite IH|].
    rewrite Unbind_pred_same_type by done. by apply Hno.
Qed.

Lemma Matches_when_apart_witness :
  keeps_Matches_apart separate_code ∧
  Matches (H := separate_code) (Bind_to (Method A_Say 1%N) Delegate_default)
    A_Say 1%N = false.
Proof.
  split; [exact separate_code_apart|].
  apply (Matches_when_apart separate_code (Method A_Say 1%N) Delegate_default
           A_Say 1%N separate_code_apart).
Defined.

(** ** The demonstration program *)

(** [main] writes the text of the first event and then the text of the
    second, each once, and returns 0, wherever the object [a] lives. *)
Theorem main_output (a : pointer) : main a = ("Test1Test2", Some 0%Z).
Proof. reflexivity. Qed.
